(** * Conway's Game of Life: the stepping engine of [main.py]

    A shallow embedding of the cellular-automaton core of the program
    ([gen], [get_neighbors], [adjust_grid] and the button handlers of
    [main]) together with the properties its specification states.

    - A coordinate is a Python tuple of two unbounded integers: [Z * Z].
    - The live cells are a Python [set] of tuples: [gset (Z * Z)].
    - Iterating over a Python set visits every member once, in an order
      the language does not fix: the loops of [adjust_grid] are folds over
      an enumeration [iter s] of the set, and the theorems hold for every
      enumeration that is a permutation of the members.
    - [random.randrange] is a state-passing generator that can fail
      (Python raises [ValueError] on an empty range). *)

From Stdlib Require Import ZArith Lia.
From stdpp Require Import gmap sets list numbers strings.

Local Open Scope Z_scope.

(** ** Data model *)

(** The configuration constants of the module. *)
Definition GRID_WIDTH : Z := 40.
Definition GRID_HEIGHT : Z := 40.

(** [st.session_state]: the three keys the program initialises. *)
Record session_state : Type := SessionState {
  positions : gset (Z * Z);
  playing : bool;
  generation : Z
}.

(** The state the script installs on its first run. *)
Definition initial_state : session_state :=
  {| positions := ∅; playing := false; generation := 0 |}.

(** ** Grid geometry *)

Section Geometry.
(** The functions read the two module constants; they are explicit
    here so that grids of other sizes can be stated. *)
Variables width height : Z.

(** The bounds invariant of a coordinate: [0 <= x < width] and
    [0 <= y < height]. *)
Definition in_bounds (c : Z * Z) : Prop :=
  (0 ≤ c.1 < width) ∧ (0 ≤ c.2 < height).

#[global] Instance in_bounds_dec c : Decision (in_bounds c).
Proof. unfold in_bounds. apply _. Defined.

(** Every member of a live-set is in bounds. *)
Definition all_in_bounds (L : gset (Z * Z)) : Prop :=
  ∀ c, c ∈ L → in_bounds c.

(** The offsets both loops of [get_neighbors] range over. *)
Definition offsets : list Z := [-1; 0; 1].

(** [get_neighbors]: the outer loop over [dx] skips a column that is
    off the grid, the inner loop over [dy] skips a row that is off the
    grid and the cell itself; what is left is appended in loop order. *)
Definition get_neighbors (pos : Z * Z) : list (Z * Z) :=
  let '(x, y) := pos in
  dx ← offsets;
  if (x + dx <? 0) || (x + dx >=? width) then []
  else
    dy ← offsets;
    if (y + dy <? 0) || (y + dy >=? height) then []
    else if (dx =? 0) && (dy =? 0) then []
    else [(x + dx, y + dy)].

(** [[n for n in neighbors if n in positions]] *)
Definition alive_neighbors (positions : gset (Z * Z))
    (neighbors : list (Z * Z)) : list (Z * Z) :=
  filter (λ n, n ∈ positions) neighbors.

(** ** The stepping engine *)

Section Step.
(** The order in which a [for] loop visits a set. *)
Variable iter : gset (Z * Z) → list (Z * Z).

(** Body of the first loop of [adjust_grid]: the state is the pair
    [(all_neighbors, new_positions)]. *)
Definition survival_body (positions : gset (Z * Z))
    (acc : gset (Z * Z) * gset (Z * Z)) (position : Z * Z)
    : gset (Z * Z) * gset (Z * Z) :=
  let '(all_neighbors, new_positions) := acc in
  let neighbors := get_neighbors position in
  let all_neighbors := all_neighbors ∪ list_to_set neighbors in
  let alive := alive_neighbors positions neighbors in
  if decide (length alive ∈ [2; 3]%nat)
  then (all_neighbors, new_positions ∪ {[ position ]})
  else (all_neighbors, new_positions).

(** Body of the second loop: the state is [new_positions]. *)
Definition birth_body (positions : gset (Z * Z))
    (new_positions : gset (Z * Z)) (position : Z * Z) : gset (Z * Z) :=
  let neighbors := get_neighbors position in
  let alive := alive_neighbors positions neighbors in
  if decide (length alive = 3%nat)
  then new_positions ∪ {[ position ]}
  else new_positions.

(** [adjust_grid]: both sets start empty, the first loop runs over
    [positions], the second over the [all_neighbors] the first one
    collected, and [new_positions] is returned. *)
Definition adjust_grid (positions : gset (Z * Z)) : gset (Z * Z) :=
  let '(all_neighbors, new_positions) :=
    foldl (survival_body positions) (∅, ∅) (iter positions) in
  foldl (birth_body positions) new_positions (iter all_neighbors).
End Step.

(** The number of live neighbours both loops test: the length of the
    list comprehension. *)
Definition alive_count (positions : gset (Z * Z)) (c : Z * Z) : nat :=
  length (alive_neighbors positions (get_neighbors c)).

(** The number of neighbours of [c] that are members of [L], counted on
    the set. *)
Definition live_neighbors (L : gset (Z * Z)) (c : Z * Z) : nat :=
  size (filter (λ n, n ∈ get_neighbors c) L).
End Geometry.

(** ** The full-grid scan of the specification

    The specification allows an implementation that visits every cell of
    the grid and applies the rule table to it.  These definitions follow
    its words; [adjust_grid] above follows the code. *)

Inductive cell_state : Type := Alive | Dead.

#[global] Instance cell_state_eq_dec : EqDecision cell_state.
Proof. solve_decision. Defined.

(** The B3/S23 rule table, row by row. *)
Definition rule_table (current : cell_state) (alive : nat) : cell_state :=
  match current, alive with
  | Alive, (0 | 1)%nat => Dead
  | Alive, (2 | 3)%nat => Alive
  | Alive, _ => Dead
  | Dead, 3%nat => Alive
  | Dead, _ => Dead
  end.

Definition state_of (L : gset (Z * Z)) (c : Z * Z) : cell_state :=
  if decide (c ∈ L) then Alive else Dead.

(** Every coordinate of the grid, column by column. *)
Definition full_grid (width height : Z) : list (Z * Z) :=
  x ← seqZ 0 width; y ← seqZ 0 height; [(x, y)].

Definition next_state (width height : Z) (L : gset (Z * Z)) (c : Z * Z)
    : cell_state :=
  rule_table (state_of L c) (live_neighbors width height L c).

Definition full_scan_step (width height : Z) (L : gset (Z * Z))
    : gset (Z * Z) :=
  list_to_set
    (filter (λ c, next_state width height L c = Alive)
            (full_grid width height)).

(** ** Random population *)

Section Random.
(** The generator behind [random.randrange]: it reads and advances a
    hidden state, and fails on an empty range. *)
Variable rng : Type.
Variable randrange : Z → Z → rng → option (Z * rng).

Variables width height : Z.

(** The list comprehension of [gen]: [n] tuples, each drawing its first
    component below [GRID_HEIGHT] and then its second below
    [GRID_WIDTH]. *)
Fixpoint gen_draws (n : nat) (s : rng) : option (list (Z * Z) * rng) :=
  match n with
  | O => Some ([], s)
  | S n' =>
      '(a, s1) ← randrange 0 height s;
      '(b, s2) ← randrange 0 width s1;
      '(rest, s3) ← gen_draws n' s2;
      Some ((a, b) :: rest, s3)
  end.

(** [gen]: [range(num)] is empty for a negative [num]. *)
Definition gen (num : Z) (s : rng) : option (gset (Z * Z) * rng) :=
  '(cells, s') ← gen_draws (Z.to_nat num) s;
  Some (list_to_set cells, s').
End Random.

Arguments gen_draws {rng} randrange width height n s.
Arguments gen {rng} randrange width height num s.

(** The contract of [random.randrange] on a non-empty range. *)
Definition randrange_contract {rng : Type}
    (randrange : Z → Z → rng → option (Z * rng)) : Prop :=
  ∀ a b s, a < b → ∃ v s', randrange a b s = Some (v, s') ∧ a ≤ v < b.

(** A concrete generator that meets the contract: a linear congruential
    state reduced into the range. *)
Definition lcg_randrange (a b : Z) (s : Z) : option (Z * Z) :=
  if decide (a < b)
  then Some (a + s `mod` (b - a), (1103515245 * s + 12345) `mod` 2147483648)
  else None.

(** ** Button handlers and the game loop of [main] *)

(** The body of [if st.button("Clear")]. *)
Definition clear_button (s : session_state) : session_state :=
  let s := {| positions := ∅; playing := playing s;
              generation := generation s |} in
  {| positions := positions s; playing := playing s; generation := 0 |}.

(** The body of [if st.button("Stop")]. *)
Definition stop_button (s : session_state) : session_state :=
  let s := {| positions := positions s; playing := false;
              generation := generation s |} in
  let s := {| positions := ∅; playing := playing s;
              generation := generation s |} in
  {| positions := positions s; playing := playing s; generation := 0 |}.

(** The body of [if st.button(button_text)]. *)
Definition start_pause_button (s : session_state) : session_state :=
  {| positions := positions s; playing := negb (playing s);
     generation := generation s |}.

(** The game loop: while playing, one step and one more generation. *)
Definition game_loop (iter : gset (Z * Z) → list (Z * Z))
    (s : session_state) : session_state :=
  if playing s then
    {| positions := adjust_grid GRID_WIDTH GRID_HEIGHT iter (positions s);
       playing := playing s;
       generation := generation s + 1 |}
  else s.

(** ** Toggling a cell *)

(** Modelled from the spec: [main.py] has no function that toggles a
    cell (its instructions mention clicking a cell, no code handles it).
    The specification's [toggle] flips the membership of an in-bounds
    coordinate, present to removed and absent to inserted, and is a no-op
    on a coordinate out of bounds. *)
Definition toggle (width height : Z) (c : Z * Z) (L : gset (Z * Z))
    : gset (Z * Z) :=
  if decide (in_bounds width height c) then
    if decide (c ∈ L) then L ∖ {[ c ]} else L ∪ {[ c ]}
  else L.

(** ** Adjacency on the unbounded plane *)

(** The eight cells around [c], in the order the two loops of
    [get_neighbors] reach them. *)
Definition moore (c : Z * Z) : list (Z * Z) :=
  let '(x, y) := c in
  [ (x - 1, y - 1); (x - 1, y); (x - 1, y + 1);
    (x, y - 1); (x, y + 1);
    (x + 1, y - 1); (x + 1, y); (x + 1, y + 1) ].

(** [n] is one of the eight cells around [c]. *)
Definition adjacent (c n : Z * Z) : Prop :=
  n ≠ c ∧ (-1 ≤ n.1 - c.1 ≤ 1) ∧ (-1 ≤ n.2 - c.2 ≤ 1).

#[global] Instance adjacent_dec c n : Decision (adjacent c n).
Proof. unfold adjacent. apply _. Defined.

(** The number of members of [L] among the eight cells around [c]. *)
Definition moore_count (L : gset (Z * Z)) (c : Z * Z) : nat :=
  size (filter (adjacent c) L).

(** ** Positions on the grid *)

(** On an [n] by [n] grid: the four corners, the rest of the border, and
    the interior. *)
Definition on_border (n : Z) (v : Z) : Prop := v = 0 ∨ v = n - 1.

Definition is_corner (n : Z) (c : Z * Z) : Prop :=
  on_border n c.1 ∧ on_border n c.2.

Definition is_edge (n : Z) (c : Z * Z) : Prop :=
  (on_border n c.1 ∨ on_border n c.2) ∧ ¬ is_corner n c.

Definition is_interior (n : Z) (c : Z * Z) : Prop :=
  (0 < c.1 < n - 1) ∧ (0 < c.2 < n - 1).

(** An enumeration order of sets is valid when it lists exactly the
    members, each once. *)
Definition valid_iter (iter : gset (Z * Z) → list (Z * Z)) : Prop :=
  ∀ s, iter s ≡ₚ elements s.

(** The vertical and the horizontal blinker. *)
Definition blinker_v : gset (Z * Z) := {[ (1, 1); (1, 2); (1, 3) ]}.
Definition blinker_h : gset (Z * Z) := {[ (0, 2); (1, 2); (2, 2) ]}.

(** ** Maps of the plane *)

(** Translation by [d], exchange of the two axes, and the left-right
    mirror image of a grid [width] cells wide. *)
Definition shift (d c : Z * Z) : Z * Z := (c.1 + d.1, c.2 + d.2).

Definition transpose (c : Z * Z) : Z * Z := (c.2, c.1).

Definition mirror (width : Z) (c : Z * Z) : Z * Z := (width - 1 - c.1, c.2).

(** The image of a live-set under a map of the plane. *)
Definition image (f : Z * Z → Z * Z) (L : gset (Z * Z)) : gset (Z * Z) :=
  set_map f L.

(** The 2 by 2 block whose low corner is [(x, y)]. *)
Definition block (x y : Z) : gset (Z * Z) :=
  {[ (x, y); (x + 1, y); (x, y + 1); (x + 1, y + 1) ]}.

(** How many of [v - 1], [v], [v + 1] lie in [0, n). *)
Definition span (n v : Z) : Z := Z.min (n - 1) (v + 1) - Z.max 0 (v - 1) + 1.

(** ** The drawing of the grid *)

Definition CELL_SIZE : Z := 15.

(** [create_grid_svg] assembles the text of an SVG document; the model
    keeps the document itself: each tag the function writes, with the
    numbers it formats into the tag and the literal colours. *)
Inductive svg_element : Type :=
  | Background (width height : Z) (fill : string)
  | Rect (x y width height : Z) (fill : string)
  | Line (x1 y1 x2 y2 : Z) (stroke : string) (stroke_width : Z).

Record svg_document : Type := SvgDocument {
  svg_width : Z;
  svg_height : Z;
  svg_style : string;
  svg_body : list svg_element
}.

(** The tag of one live cell: [x = col * CELL_SIZE], [y = row * CELL_SIZE]. *)
Definition cell_rect (cell_size : Z) (c : Z * Z) : svg_element :=
  let '(col, row) := c in
  let x := col * cell_size in
  let y := row * cell_size in
  Rect x y cell_size cell_size "#00FF00".

(** The tag of the [i]-th horizontal and of the [i]-th vertical line. *)
Definition h_line (cell_size width : Z) (i : Z) : svg_element :=
  let y := i * cell_size in
  Line 0 y width y "black" 1.

Definition v_line (cell_size height : Z) (i : Z) : svg_element :=
  let x := i * cell_size in
  Line x 0 x height "black" 1.

(** [create_grid_svg]: the background, then one square per live cell in
    the order the loop visits the set, then the [GRID_HEIGHT + 1]
    horizontal and the [GRID_WIDTH + 1] vertical lines; every [svg +=]
    appends at the end. *)
Definition create_grid_svg (grid_width grid_height cell_size : Z)
    (iter : gset (Z * Z) → list (Z * Z)) (positions : gset (Z * Z))
    : svg_document :=
  let width := grid_width * cell_size in
  let height := grid_height * cell_size in
  let svg := [Background width height "#808080"] in
  let svg := foldl (λ svg c, svg ++ [cell_rect cell_size c])
                   svg (iter positions) in
  let svg := foldl (λ svg i, svg ++ [h_line cell_size width i])
                   svg (seqZ 0 (grid_height + 1)) in
  let svg := foldl (λ svg i, svg ++ [v_line cell_size height i])
                   svg (seqZ 0 (grid_width + 1)) in
  {| svg_width := width; svg_height := height;
     svg_style := "border: 2px solid black;"; svg_body := svg |}.

(** The shape lies within the canvas [width] by [height]. *)
Definition inside_canvas (width height : Z) (e : svg_element) : Prop :=
  match e with
  | Background w h _ => w = width ∧ h = height
  | Rect x y w h _ =>
      (0 ≤ x) ∧ (x + w ≤ width) ∧ (0 ≤ y) ∧ (y + h ≤ height)
  | Line x1 y1 x2 y2 _ _ =>
      (0 ≤ x1 ≤ width) ∧ (0 ≤ x2 ≤ width)
      ∧ (0 ≤ y1 ≤ height) ∧ (0 ≤ y2 ≤ height)
  end.


(** ** One run of the script *)

(** Which of the four [st.button] calls return [True] in this run. *)
Record clicks : Type := Clicks {
  start_pause_clicked : bool;
  stop_clicked : bool;
  random_clicked : bool;
  clear_clicked : bool
}.

Definition no_click : clicks :=
  {| start_pause_clicked := false; stop_clicked := false;
     random_clicked := false; clear_clicked := false |}.

(** What [st.write] prints: generation, [len(positions)] and status. *)
Record status_line : Type := StatusLine {
  shown_generation : Z;
  shown_alive : nat;
  shown_playing : bool
}.

(** What a run displays: the status line and the grid. *)
Record view : Type := View {
  status : status_line;
  grid : svg_document
}.

(** The body of [if st.button("Random")]: the count is drawn first, then
    [gen] draws the cells. *)
Definition random_button {rng : Type}
    (randrange : Z → Z → rng → option (Z * rng))
    (s : session_state) (r : rng) : option (session_state * rng) :=
  '(num, r1) ← randrange 200 400 r;
  '(cells, r2) ← gen randrange GRID_WIDTH GRID_HEIGHT num r1;
  Some ({| positions := cells; playing := playing s;
           generation := 0 |}, r2).

(** [main], one run of the script on the session state.  The four buttons
    are tested in the order of the source, the status line is written
    from the state the buttons leave, then the game loop steps the grid if
    the simulation is playing, and the grid it leaves is drawn.  The page
    title, the instructions and the button labels are not modelled;
    [time.sleep] and [st.rerun] end the run. *)
Definition main {rng : Type} (randrange : Z → Z → rng → option (Z * rng))
    (iter : gset (Z * Z) → list (Z * Z))
    (ck : clicks) (s : session_state) (r : rng)
    : option (view * session_state * rng) :=
  let s := if start_pause_clicked ck then start_pause_button s else s in
  let s := if stop_clicked ck then stop_button s else s in
  '(s, r) ← (if random_clicked ck then random_button randrange s r
             else Some (s, r));
  let s := if clear_clicked ck then clear_button s else s in
  let shown := {| shown_generation := generation s;
                  shown_alive := size (positions s);
                  shown_playing := playing s |} in
  let s := game_loop iter s in
  Some ({| status := shown;
           grid := create_grid_svg GRID_WIDTH GRID_HEIGHT CELL_SIZE iter
                     (positions s) |}, s, r).

(** A session: the runs of the script, one per list entry, each on the
    state the previous one left. *)
Fixpoint session {rng : Type} (randrange : Z → Z → rng → option (Z * rng))
    (iter : gset (Z * Z) → list (Z * Z))
    (cks : list clicks) (s : session_state) (r : rng)
    : option (session_state * rng) :=
  match cks with
  | [] => Some (s, r)
  | ck :: cks' =>
      '(_, s', r') ← main randrange iter ck s r;
      session randrange iter cks' s' r'
  end.

(** The invariant of the session state: live cells within the grid of
    the program and a generation counter that is not negative. *)
Definition state_ok (s : session_state) : Prop :=
  all_in_bounds GRID_WIDTH GRID_HEIGHT (positions s) ∧ 0 ≤ generation s.

(** ** Sanity checks on concrete inputs *)

Example get_neighbors_corner_40 :
  get_neighbors 40 40 (0, 0) = [(0, 1); (1, 0); (1, 1)].
Proof. reflexivity. Qed.

Example get_neighbors_interior_40 :
  get_neighbors 40 40 (5, 7)
  = [(4, 6); (4, 7); (4, 8); (5, 6); (5, 8); (6, 6); (6, 7); (6, 8)].
Proof. reflexivity. Qed.

Example adjust_grid_blinker_5 :
  adjust_grid 5 5 elements blinker_v = blinker_h.
Proof. vm_compute. reflexivity. Qed.

(** ** Facts about the geometry *)

Section GeometryFacts.
Variables width height : Z.

Local Abbreviation nbrs := (get_neighbors width height).
Local Abbreviation inb := (in_bounds width height).

Lemma elem_of_offsets d : d ∈ offsets ↔ d = -1 ∨ d = 0 ∨ d = 1.
Proof. unfold offsets. rewrite !elem_of_cons, elem_of_nil. intuition. Qed.

(** The test that makes a loop of [get_neighbors] [continue]. *)
Lemma off_grid_false v n : (v <? 0) || (v >=? n) = false ↔ 0 ≤ v < n.
Proof.
  rewrite orb_false_iff, Z.ltb_ge, Z.geb_leb, Z.leb_gt. lia.
Qed.

Lemma is_self_false dx dy :
  (dx =? 0) && (dy =? 0) = false ↔ ¬ (dx = 0 ∧ dy = 0).
Proof.
  rewrite andb_false_iff, !Z.eqb_neq. lia.
Qed.

(** What the two loops append: the in-bounds cells among the eight around
    [c]. *)
Lemma elem_of_get_neighbors c n : n ∈ nbrs c ↔ inb n ∧ adjacent c n.
Proof.
  destruct c as [x y], n as [a b].
  unfold get_neighbors, in_bounds, adjacent; cbn [fst snd].
  rewrite list_elem_of_bind. split.
  - intros (dx & Hin & Hdx).
    destruct ((x + dx <? 0) || (x + dx >=? width)) eqn:Ex;
      [by apply elem_of_nil in Hin|].
    apply list_elem_of_bind in Hin as (dy & Hin & Hdy).
    destruct ((y + dy <? 0) || (y + dy >=? height)) eqn:Ey;
      [by apply elem_of_nil in Hin|].
    destruct ((dx =? 0) && (dy =? 0)) eqn:Es;
      [by apply elem_of_nil in Hin|].
    apply list_elem_of_singleton in Hin. injection Hin as -> ->.
    apply off_grid_false in Ex, Ey. apply is_self_false in Es.
    apply elem_of_offsets in Hdx, Hdy.
    repeat split; try lia. intros Heq; injection Heq; lia.
  - intros ((Ha & Hb) & Hne & Hx & Hy).
    exists (a - x). split; [|apply elem_of_offsets; lia].
    replace (x + (a - x)) with a by lia.
    destruct ((a <? 0) || (a >=? width)) eqn:Ex;
      [apply not_false_iff_true in Ex; rewrite off_grid_false in Ex; lia|].
    apply list_elem_of_bind. exists (b - y).
    split; [|apply elem_of_offsets; lia].
    replace (y + (b - y)) with b by lia.
    destruct ((b <? 0) || (b >=? height)) eqn:Ey;
      [apply not_false_iff_true in Ey; rewrite off_grid_false in Ey; lia|].
    destruct ((a - x =? 0) && (b - y =? 0)) eqn:Es.
    + apply andb_true_iff in Es as [?%Z.eqb_eq ?%Z.eqb_eq].
      exfalso. apply Hne. f_equal; lia.
    + apply list_elem_of_singleton. reflexivity.
Qed.

Lemma get_neighbors_in_bounds c n : n ∈ nbrs c → inb n.
Proof. intros H. by apply elem_of_get_neighbors in H as [? _]. Qed.

Lemma get_neighbors_not_self c : c ∉ nbrs c.
Proof. intros H. by apply elem_of_get_neighbors in H as (_ & ? & _). Qed.

Lemma adjacent_sym a b : adjacent a b → adjacent b a.
Proof.
  unfold adjacent. intros (Hne & ? & ?). repeat split; try lia. congruence.
Qed.

Lemma get_neighbors_sym a b : inb a → b ∈ nbrs a → a ∈ nbrs b.
Proof.
  intros Ha [_ Hadj]%elem_of_get_neighbors.
  apply elem_of_get_neighbors. split; [done|by apply adjacent_sym].
Qed.

Lemma elem_of_moore c n : n ∈ moore c ↔ adjacent c n.
Proof.
  destruct c as [x y], n as [a b]. unfold moore, adjacent; simpl.
  rewrite !elem_of_cons, elem_of_nil. split.
  - intros H. repeat destruct H as [H|H]; try done;
      injection H as -> ->; (split; [intros Heq; injection Heq|]; lia).
  - intros (Hne & Hx & Hy).
    assert (a = x - 1 ∨ a = x ∨ a = x + 1) as Ha by lia.
    assert (b = y - 1 ∨ b = y ∨ b = y + 1) as Hb by lia.
    destruct Ha as [Ha|[Ha|Ha]], Hb as [Hb|[Hb|Hb]]; subst a b; tauto.
Qed.

Lemma NoDup_moore c : NoDup (moore c).
Proof.
  destruct c as [x y]. unfold moore.
  repeat (apply list.NoDup_cons; split;
          [rewrite ?elem_of_cons, ?elem_of_nil; intros H;
           repeat destruct H as [H|H]; try done; injection H; lia|]).
  apply list.NoDup_nil. done.
Qed.

(** The loops and the filter produce the same list, in the same order. *)
Lemma get_neighbors_filter_moore c :
  nbrs c = filter inb (moore c).
Proof.
  destruct c as [x y]. unfold get_neighbors, moore, offsets. simpl.
  rewrite !Z.add_0_r. change (x + -1) with (x - 1). change (y + -1) with (y - 1).
  repeat match goal with
  | |- context [ (?v <? 0) || (?v >=? ?n) ] =>
      let E := fresh "E" in
      destruct ((v <? 0) || (v >=? n)) eqn:E;
      [apply not_false_iff_true in E; rewrite off_grid_false in E
      |apply off_grid_false in E]
  end; simpl;
  repeat (rewrite filter_cons; case_decide as Hd;
          unfold in_bounds in Hd; cbn [fst snd] in Hd; try lia; clear Hd);
  rewrite ?filter_nil; reflexivity.
Qed.

Lemma NoDup_get_neighbors c : NoDup (nbrs c).
Proof.
  rewrite get_neighbors_filter_moore. apply list.NoDup_filter, NoDup_moore.
Qed.

(** The list the code counts and the set of live neighbours have the
    same size, since the list has no duplicates. *)
Lemma alive_count_live_neighbors L c :
  alive_count width height L c = live_neighbors width height L c.
Proof.
  unfold alive_count, live_neighbors, alive_neighbors, size, set_size.
  simpl. apply Permutation_length, NoDup_Permutation.
  - apply list.NoDup_filter, NoDup_get_neighbors.
  - apply NoDup_elements.
  - intros n. rewrite list_elem_of_filter, elem_of_elements, elem_of_filter.
    tauto.
Qed.

(** On a live-set within the grid, clipping the neighbourhood loses no
    live cell. *)
Lemma live_neighbors_moore_count L c :
  all_in_bounds width height L →
  live_neighbors width height L c = moore_count L c.
Proof.
  intros HL. unfold live_neighbors, moore_count. f_equal.
  apply set_eq. intros n. rewrite !elem_of_filter, elem_of_get_neighbors.
  specialize (HL n). tauto.
Qed.

End GeometryFacts.

(** Evaluate a filter of [moore] when every bounds test is settled by the
    hypotheses. *)
Ltac settle_bounds :=
  repeat (rewrite filter_cons;
          let Hd := fresh "Hd" in
          case_decide as Hd;
          unfold in_bounds in Hd; cbn [fst snd] in Hd;
          try (exfalso; lia); clear Hd);
  rewrite ?filter_nil.

Section SquareGrid.
Variable n : Z.
Hypothesis n_ge_3 : 3 ≤ n.

Lemma length_get_neighbors_corner c :
  in_bounds n n c → is_corner n c → length (get_neighbors n n c) = 3%nat.
Proof.
  destruct c as [x y]. unfold in_bounds, is_corner, on_border; cbn [fst snd].
  intros _ [Hx Hy]. rewrite get_neighbors_filter_moore. unfold moore.
  destruct Hx as [-> | ->], Hy as [-> | ->]; settle_bounds; reflexivity.
Qed.

Lemma length_get_neighbors_edge c :
  in_bounds n n c → is_edge n c → length (get_neighbors n n c) = 5%nat.
Proof.
  destruct c as [x y].
  unfold in_bounds, is_edge, is_corner, on_border; cbn [fst snd].
  intros [Hx Hy] [Hb Hc]. rewrite get_neighbors_filter_moore. unfold moore.
  destruct Hb as [[-> | ->] | [-> | ->]]; settle_bounds; reflexivity.
Qed.

Lemma length_get_neighbors_interior c :
  is_interior n c → length (get_neighbors n n c) = 8%nat.
Proof.
  destruct c as [x y]. unfold is_interior; cbn [fst snd].
  intros [Hx Hy]. rewrite get_neighbors_filter_moore. unfold moore.
  settle_bounds; reflexivity.
Qed.

End SquareGrid.

(** ** Facts about the two loops of [adjust_grid] *)

Section StepFacts.
Variables width height : Z.

Local Abbreviation nbrs := (get_neighbors width height).
Local Abbreviation cnt := (alive_count width height).

(** The test [len(alive_neighbors) in [2, 3]]. *)
Lemma elem_of_2_3 (k : nat) : k ∈ [2; 3]%nat ↔ k = 2%nat ∨ k = 3%nat.
Proof. rewrite !elem_of_cons, elem_of_nil. tauto. Qed.

(** One pass of the body of the first loop. *)
Lemma survival_body_eq P A N p :
  survival_body width height P (A, N) p
  = (A ∪ list_to_set (nbrs p),
     if decide (cnt P p ∈ [2; 3]%nat) then N ∪ {[ p ]} else N).
Proof.
  unfold survival_body, alive_count. by case_decide.
Qed.

(** The first loop, from any pair of sets and over any list: it adds the
    neighbours of every visited cell to the first set, and every visited
    cell with 2 or 3 live neighbours to the second. *)
Lemma survival_loop P l A N c :
  (c ∈ (foldl (survival_body width height P) (A, N) l).1
     ↔ c ∈ A ∨ ∃ p, p ∈ l ∧ c ∈ nbrs p)
  ∧ (c ∈ (foldl (survival_body width height P) (A, N) l).2
     ↔ c ∈ N ∨ (c ∈ l ∧ cnt P c ∈ [2; 3]%nat)).
Proof.
  revert A N. induction l as [|p l IH]; intros A N.
  - simpl. split.
    + split; [tauto|]. intros [?|(p & Hp & _)]; [done|].
      by apply elem_of_nil in Hp.
    + split; [tauto|]. intros [?|[Hc _]]; [done|].
      by apply elem_of_nil in Hc.
  - cbn [foldl]. rewrite survival_body_eq.
    match goal with |- context [foldl _ (?A', ?N') l] =>
      destruct (IH A' N') as [IH1 IH2] end.
    rewrite IH1, IH2. clear IH IH1 IH2. split.
    + rewrite elem_of_union, elem_of_list_to_set. split.
      * intros [[?|?]|(q & ? & ?)]; [tauto|right; exists p|right; exists q];
          (split; [apply elem_of_cons|]; tauto).
      * intros [?|(q & [-> | ?]%elem_of_cons & ?)]; [tauto|tauto|].
        right. by exists q.
    + rewrite (elem_of_cons l c p). case_decide as Hd.
      * rewrite elem_of_union, elem_of_singleton. split.
        -- intros [[?| ->]|[? ?]]; tauto.
        -- intros [?|[[-> | ?] ?]]; tauto.
      * split.
        -- intros [?|[? ?]]; tauto.
        -- intros [?|[[-> | ?] ?]]; [tauto|done|tauto].
Qed.

(** The second loop adds every visited cell with exactly 3 live
    neighbours. *)
Lemma birth_loop P l N c :
  c ∈ foldl (birth_body width height P) N l
  ↔ c ∈ N ∨ (c ∈ l ∧ cnt P c = 3%nat).
Proof.
  revert N. induction l as [|p l IH]; intros N.
  - simpl. split; [tauto|]. intros [?|[Hc _]]; [done|].
    by apply elem_of_nil in Hc.
  - cbn [foldl]. rewrite IH. unfold birth_body. fold (cnt P p).
    unfold alive_count at 1.
    case_decide as Hd; rewrite ?elem_of_union, ?elem_of_singleton,
      (elem_of_cons l c p).
    + split.
      * intros [[?| ->]|[? ?]]; tauto.
      * intros [?|[[-> | ?] ?]]; tauto.
    + split.
      * intros [?|[? ?]]; tauto.
      * intros [?|[[-> | ?] ?]]; [tauto|done|tauto].
Qed.

Lemma elem_of_valid_iter iter s c : valid_iter iter → c ∈ iter s ↔ c ∈ s.
Proof. intros Hv. rewrite (Hv s). apply elem_of_elements. Qed.

(** What [adjust_grid] returns, whatever the order of the two loops: the
    survivors of the first loop and the births of the second. *)
Lemma elem_of_adjust_grid iter P c :
  valid_iter iter →
  c ∈ adjust_grid width height iter P
  ↔ (c ∈ P ∧ cnt P c ∈ [2; 3]%nat)
    ∨ ((∃ p, p ∈ P ∧ c ∈ nbrs p) ∧ cnt P c = 3%nat).
Proof.
  intros Hv. unfold adjust_grid.
  pose proof (λ c, survival_loop P (iter P) ∅ ∅ c) as Hs.
  destruct (foldl (survival_body width height P) (∅, ∅) (iter P))
    as [A N]. cbn [fst snd] in Hs.
  rewrite birth_loop, elem_of_valid_iter by done.
  destruct (Hs c) as [HA HN]. rewrite HA, HN.
  setoid_rewrite (elem_of_valid_iter iter P _ Hv).
  rewrite !elem_of_empty. tauto.
Qed.

End StepFacts.

(** ** The rule of one step *)

Section StepRule.
Variables width height : Z.
Variable iter : gset (Z * Z) → list (Z * Z).
Hypothesis iter_valid : valid_iter iter.

Local Abbreviation next_gen := (adjust_grid width height iter).
Local Abbreviation live := (live_neighbors width height).

(** A cell with a live neighbour is itself a neighbour of a live cell,
    so the second loop visits it. *)
Lemma live_neighbors_pos_visited L c :
  in_bounds width height c → live L c ≠ 0%nat →
  ∃ p, p ∈ L ∧ c ∈ get_neighbors width height p.
Proof.
  intros Hc Hpos. unfold live_neighbors in Hpos.
  apply size_non_empty_iff, set_choose in Hpos as [p Hp].
  apply elem_of_filter in Hp as [Hn Hp].
  exists p. split; [done|]. by apply get_neighbors_sym in Hn.
Qed.

(** Every cell of the next generation is in bounds when the current one
    is. *)
Lemma adjust_grid_in_bounds L c :
  all_in_bounds width height L → c ∈ next_gen L → in_bounds width height c.
Proof.
  intros HL. rewrite elem_of_adjust_grid by done.
  intros [[Hc _]|[(p & _ & Hn) _]].
  - by apply HL.
  - by apply get_neighbors_in_bounds in Hn.
Qed.

(** B3/S23 on an in-bounds cell. *)
Lemma adjust_grid_b3s23 L c :
  in_bounds width height c →
  c ∈ next_gen L
  ↔ (c ∈ L ∧ (live L c = 2%nat ∨ live L c = 3%nat))
    ∨ ((c ∉ L) ∧ live L c = 3%nat).
Proof.
  intros Hc. rewrite elem_of_adjust_grid by done.
  rewrite elem_of_2_3, alive_count_live_neighbors. split.
  - intros [?|[_ H3]]; [by left|].
    destruct (decide (c ∈ L)); [left|right]; tauto.
  - intros [?|[_ H3]]; [by left|]. right. split; [|done].
    apply live_neighbors_pos_visited; [done|]. rewrite H3. done.
Qed.

Lemma elem_of_full_grid c :
  c ∈ full_grid width height ↔ in_bounds width height c.
Proof.
  destruct c as [x y]. unfold full_grid, in_bounds. cbn [fst snd].
  rewrite list_elem_of_bind. split.
  - intros (x' & (y' & Hxy & Hy)%list_elem_of_bind & Hx).
    apply list_elem_of_singleton in Hxy. injection Hxy as -> ->.
    apply elem_of_seqZ in Hx, Hy. lia.
  - intros [Hx Hy]. exists x. split; [|apply elem_of_seqZ; lia].
    apply list_elem_of_bind. exists y.
    split; [apply list_elem_of_singleton; done|apply elem_of_seqZ; lia].
Qed.

(** The rule table says [Alive] exactly in the three B3/S23 cases. *)
Lemma next_state_alive L c :
  next_state width height L c = Alive
  ↔ (c ∈ L ∧ (live L c = 2%nat ∨ live L c = 3%nat))
    ∨ ((c ∉ L) ∧ live L c = 3%nat).
Proof.
  unfold next_state, state_of.
  destruct (decide (c ∈ L)) as [Hin|Hout];
    destruct (live L c) as [|[|[|[|k]]]]; simpl; split;
    try tauto; try done; intros [[? [?|?]]|[? ?]]; try done; lia.
Qed.

Lemma elem_of_full_scan_step L c :
  c ∈ full_scan_step width height L
  ↔ in_bounds width height c ∧ next_state width height L c = Alive.
Proof.
  unfold full_scan_step.
  rewrite elem_of_list_to_set, list_elem_of_filter, elem_of_full_grid.
  tauto.
Qed.

End StepRule.

(** ** Enumeration orders and concrete live-sets used below *)

Lemma valid_iter_elements : valid_iter elements.
Proof. intros s. reflexivity. Qed.

Lemma valid_iter_reverse : valid_iter (λ s, reverse (elements s)).
Proof. intros s. apply reverse_Permutation. Qed.

Lemma elem_of_blinker_v c :
  c ∈ blinker_v ↔ c = (1, 1) ∨ c = (1, 2) ∨ c = (1, 3).
Proof.
  unfold blinker_v. rewrite !elem_of_union, !elem_of_singleton. tauto.
Qed.

Lemma elem_of_blinker_h c :
  c ∈ blinker_h ↔ c = (0, 2) ∨ c = (1, 2) ∨ c = (2, 2).
Proof.
  unfold blinker_h. rewrite !elem_of_union, !elem_of_singleton. tauto.
Qed.

Lemma blinker_v_in_bounds width height :
  2 ≤ width → 4 ≤ height → all_in_bounds width height blinker_v.
Proof.
  intros Hw Hh c [-> |[-> | ->]]%elem_of_blinker_v;
    unfold in_bounds; cbn [fst snd]; lia.
Qed.

Lemma blinker_h_in_bounds width height :
  3 ≤ width → 3 ≤ height → all_in_bounds width height blinker_h.
Proof.
  intros Hw Hh c [-> |[-> | ->]]%elem_of_blinker_h;
    unfold in_bounds; cbn [fst snd]; lia.
Qed.

(** * The claims *)

(** C1. For every live-set [L] within the grid and every in-bounds
    coordinate [c], [c] is in the next generation if and only if either
    [c] is in [L] and the number of its neighbours in [L] is 2 or 3, or
    [c] is not in [L] and that number is exactly 3: the B3/S23 rule. *)
Theorem adjust_grid_rule width height iter L c :
  valid_iter iter →
  all_in_bounds width height L →
  in_bounds width height c →
  c ∈ adjust_grid width height iter L
  ↔ (c ∈ L ∧ (live_neighbors width height L c = 2%nat
               ∨ live_neighbors width height L c = 3%nat))
    ∨ ((c ∉ L) ∧ live_neighbors width height L c = 3%nat).
Proof.
  intros Hv _ Hc. by apply adjust_grid_b3s23.
Qed.

Lemma adjust_grid_rule_witness :
  (0, 2) ∈ adjust_grid 40 40 elements blinker_v
  ↔ ((0, 2) ∈ blinker_v ∧ (live_neighbors 40 40 blinker_v (0, 2) = 2%nat
                          ∨ live_neighbors 40 40 blinker_v (0, 2) = 3%nat))
    ∨ (((0, 2) ∉ blinker_v) ∧ live_neighbors 40 40 blinker_v (0, 2) = 3%nat).
Proof.
  apply (adjust_grid_rule 40 40 elements blinker_v (0, 2)).
  - exact valid_iter_elements.
  - apply blinker_v_in_bounds; lia.
  - unfold in_bounds; simpl; lia.
Defined.

(** C2. For every live-set [L] within the grid, the two-pass sparse step
    of the code returns exactly the live-set of the full-grid scan that
    applies the B3/S23 rule table to every in-bounds cell. *)
Theorem adjust_grid_full_scan width height iter L :
  valid_iter iter →
  all_in_bounds width height L →
  adjust_grid width height iter L = full_scan_step width height L.
Proof.
  intros Hv HL. apply set_eq. intros c.
  rewrite elem_of_full_scan_step, next_state_alive. split.
  - intros Hc. assert (in_bounds width height c) as Hb
      by (by apply (adjust_grid_in_bounds width height iter Hv L)).
    split; [done|]. by apply (adjust_grid_b3s23 width height iter Hv).
  - intros [Hb Hr]. by apply (adjust_grid_b3s23 width height iter Hv).
Qed.

Lemma adjust_grid_full_scan_witness :
  adjust_grid 40 40 elements blinker_v = full_scan_step 40 40 blinker_v.
Proof.
  apply (adjust_grid_full_scan 40 40 elements blinker_v).
  - exact valid_iter_elements.
  - apply blinker_v_in_bounds; lia.
Defined.

(** C3. For every in-bounds coordinate [c] of an [n] by [n] grid with
    [n >= 3], [get_neighbors] returns only in-bounds coordinates, never
    [c] itself, no duplicates, and exactly 3 coordinates for a corner, 5
    for an edge cell that is not a corner, and 8 for an interior cell. *)
Theorem get_neighbors_square n c :
  3 ≤ n →
  in_bounds n n c →
  (∀ m, m ∈ get_neighbors n n c → in_bounds n n m)
  ∧ (c ∉ get_neighbors n n c)
  ∧ NoDup (get_neighbors n n c)
  ∧ (is_corner n c → length (get_neighbors n n c) = 3%nat)
  ∧ (is_edge n c → length (get_neighbors n n c) = 5%nat)
  ∧ (is_interior n c → length (get_neighbors n n c) = 8%nat).
Proof.
  intros Hn Hc. repeat apply conj.
  - intros m Hm. apply (get_neighbors_in_bounds n n c m Hm).
  - apply get_neighbors_not_self.
  - apply NoDup_get_neighbors.
  - by apply length_get_neighbors_corner.
  - by apply length_get_neighbors_edge.
  - by apply length_get_neighbors_interior.
Qed.

Lemma get_neighbors_square_witness :
  (∀ m, m ∈ get_neighbors 40 40 (0, 7) → in_bounds 40 40 m)
  ∧ ((0, 7) ∉ get_neighbors 40 40 (0, 7))
  ∧ NoDup (get_neighbors 40 40 (0, 7))
  ∧ (is_corner 40 (0, 7) → length (get_neighbors 40 40 (0, 7)) = 3%nat)
  ∧ (is_edge 40 (0, 7) → length (get_neighbors 40 40 (0, 7)) = 5%nat)
  ∧ (is_interior 40 (0, 7) → length (get_neighbors 40 40 (0, 7)) = 8%nat).
Proof.
  apply (get_neighbors_square 40 (0, 7)).
  - lia.
  - unfold in_bounds; simpl; lia.
Defined.

(** C4. The bounds invariant is preserved by a step: when every member
    of [L] is in bounds, so is every member of the next generation. *)
Theorem adjust_grid_preserves_bounds width height iter L :
  valid_iter iter →
  all_in_bounds width height L →
  all_in_bounds width height (adjust_grid width height iter L).
Proof.
  intros Hv HL c Hc.
  by apply (adjust_grid_in_bounds width height iter Hv L).
Qed.

Lemma adjust_grid_preserves_bounds_witness :
  all_in_bounds 40 40 (adjust_grid 40 40 elements blinker_v).
Proof.
  apply (adjust_grid_preserves_bounds 40 40 elements blinker_v).
  - exact valid_iter_elements.
  - apply blinker_v_in_bounds; lia.
Defined.

(** ** The blinker *)

Section Blinker.
Variables width height : Z.
Variable iter : gset (Z * Z) → list (Z * Z).
Hypothesis iter_valid : valid_iter iter.

(** On a live-set within the grid the two loops count the live cells
    among the eight cells around [c], and the second loop visits the
    in-bounds cells around the live ones. *)
Lemma elem_of_adjust_grid_moore L c :
  all_in_bounds width height L →
  c ∈ adjust_grid width height iter L
  ↔ (c ∈ L ∧ moore_count L c ∈ [2; 3]%nat)
    ∨ ((∃ p, p ∈ L ∧ in_bounds width height c ∧ c ∈ moore p)
       ∧ moore_count L c = 3%nat).
Proof.
  intros HL. rewrite elem_of_adjust_grid by done.
  rewrite alive_count_live_neighbors, live_neighbors_moore_count by done.
  setoid_rewrite elem_of_get_neighbors. setoid_rewrite elem_of_moore.
  tauto.
Qed.

(** Settle a candidate cell of the next generation: either its count
    rules it out, or it is one of the expected cells. *)
Ltac settle_candidate Hn :=
  first [ by (vm_compute in Hn; discriminate Hn)
        | by (apply elem_of_2_3 in Hn; destruct Hn as [Hn|Hn];
              vm_compute in Hn; discriminate Hn)
        | compute_done ].

Ltac candidates Hm Hn :=
  unfold moore in Hm; rewrite !elem_of_cons, elem_of_nil in Hm;
  repeat destruct Hm as [Hm|Hm]; try done; subst;
  settle_candidate Hn.

Lemma blinker_v_step :
  5 ≤ width → 5 ≤ height →
  adjust_grid width height iter blinker_v = blinker_h.
Proof.
  intros Hw Hh. apply set_eq. intros c.
  rewrite elem_of_adjust_grid_moore by (apply blinker_v_in_bounds; lia).
  split.
  - intros [[Hc Hn]|[(p & Hp & Hb & Hm) Hn]].
    + apply elem_of_blinker_v in Hc as [-> |[-> | ->]]; settle_candidate Hn.
    + apply elem_of_blinker_v in Hp as [-> |[-> | ->]]; candidates Hm Hn.
  - intros [-> |[-> | ->]]%elem_of_blinker_h.
    + right. split; [|compute_done]. exists (1, 2).
      split; [compute_done|]. split; [|compute_done].
      unfold in_bounds; simpl; lia.
    + left. split; compute_done.
    + right. split; [|compute_done]. exists (1, 2).
      split; [compute_done|]. split; [|compute_done].
      unfold in_bounds; simpl; lia.
Qed.

Lemma blinker_h_step :
  5 ≤ width → 5 ≤ height →
  adjust_grid width height iter blinker_h = blinker_v.
Proof.
  intros Hw Hh. apply set_eq. intros c.
  rewrite elem_of_adjust_grid_moore by (apply blinker_h_in_bounds; lia).
  split.
  - intros [[Hc Hn]|[(p & Hp & Hb & Hm) Hn]].
    + apply elem_of_blinker_h in Hc as [-> |[-> | ->]]; settle_candidate Hn.
    + apply elem_of_blinker_h in Hp as [-> |[-> | ->]]; candidates Hm Hn.
  - intros [-> |[-> | ->]]%elem_of_blinker_v.
    + right. split; [|compute_done]. exists (1, 2).
      split; [compute_done|]. split; [|compute_done].
      unfold in_bounds; simpl; lia.
    + left. split; compute_done.
    + right. split; [|compute_done]. exists (1, 2).
      split; [compute_done|]. split; [|compute_done].
      unfold in_bounds; simpl; lia.
Qed.

End Blinker.

(** ** Facts about [gen] *)

Section GenFacts.
Context {rng : Type}.
Variable randrange : Z → Z → rng → option (Z * rng).
Hypothesis randrange_ok : randrange_contract randrange.
Variables width height : Z.
Hypothesis width_pos : 0 < width.
Hypothesis height_pos : 0 < height.

(** The comprehension never fails on a grid with cells, draws exactly
    [n] tuples, the first component below [height] and the second below
    [width]. *)
Lemma gen_draws_ok n s :
  ∃ cells s',
    gen_draws randrange width height n s = Some (cells, s')
    ∧ length cells = n
    ∧ Forall (λ c, (0 ≤ c.1 < height) ∧ (0 ≤ c.2 < width)) cells.
Proof.
  revert s. induction n as [|n IH]; intros s.
  - exists [], s. simpl. by repeat split.
  - destruct (randrange_ok 0 height s height_pos) as (a & s1 & Ea & Ha).
    destruct (randrange_ok 0 width s1 width_pos) as (b & s2 & Eb & Hb).
    destruct (IH s2) as (rest & s3 & Er & Hlen & Hall).
    exists ((a, b) :: rest), s3. cbn [gen_draws].
    rewrite Ea. simpl. rewrite Eb. simpl. rewrite Er. simpl.
    repeat split; [by f_equal|]. by apply Forall_cons.
Qed.

End GenFacts.

(** A set built from a list has at most as many members as the list has
    entries: duplicate draws collapse. *)
Lemma size_list_to_set_le (l : list (Z * Z)) :
  (size (list_to_set l : gset (Z * Z)) ≤ length l)%nat.
Proof.
  induction l as [|c l IH].
  - rewrite list_to_set_nil, size_empty. done.
  - rewrite list_to_set_cons, size_union_alt, size_singleton.
    cbn [length].
    assert (size (list_to_set l ∖ {[c]} : gset (Z * Z))
            ≤ size (list_to_set l : gset (Z * Z)))%nat as Hsub
      by (apply subseteq_size, subseteq_difference_l; done).
    lia.
Qed.

Lemma lcg_randrange_contract : randrange_contract lcg_randrange.
Proof.
  intros a b s Hab. unfold lcg_randrange. rewrite decide_True by done.
  eexists _, _. split; [reflexivity|].
  pose proof (Z.mod_pos_bound s (b - a)). lia.
Qed.

(** C5. On a grid of at least 5 by 5, one step takes the vertical
    blinker [{(1,1),(1,2),(1,3)}] to exactly [{(0,2),(1,2),(2,2)}], and a
    second step takes it back: a period-2 oscillator. *)
Theorem blinker_period_2 width height iter :
  valid_iter iter →
  5 ≤ width → 5 ≤ height →
  adjust_grid width height iter blinker_v = blinker_h
  ∧ adjust_grid width height iter (adjust_grid width height iter blinker_v)
    = blinker_v.
Proof.
  intros Hv Hw Hh.
  rewrite (blinker_v_step width height iter Hv Hw Hh).
  split; [done|]. by apply blinker_h_step.
Qed.

Lemma blinker_period_2_witness :
  adjust_grid 5 5 elements blinker_v = blinker_h
  ∧ adjust_grid 5 5 elements (adjust_grid 5 5 elements blinker_v)
    = blinker_v.
Proof.
  apply (blinker_period_2 5 5 elements).
  - exact valid_iter_elements.
  - lia.
  - lia.
Defined.

(** C6. A step is deterministic: on the same live-set and the same grid,
    two runs return equal live-sets, whatever order each run's loops
    visit the sets in. *)
Theorem adjust_grid_deterministic width height iter1 iter2 L :
  valid_iter iter1 → valid_iter iter2 →
  adjust_grid width height iter1 L = adjust_grid width height iter2 L.
Proof.
  intros Hv1 Hv2. apply set_eq. intros c.
  by rewrite !elem_of_adjust_grid.
Qed.

Lemma adjust_grid_deterministic_witness :
  adjust_grid 40 40 elements blinker_v
  = adjust_grid 40 40 (λ s, reverse (elements s)) blinker_v.
Proof.
  apply (adjust_grid_deterministic 40 40 elements
           (λ s, reverse (elements s)) blinker_v).
  - exact valid_iter_elements.
  - exact valid_iter_reverse.
Defined.

(** C7. For every non-negative [num], [gen(num)] returns a live-set with
    at most [num] members, every one of them within the 40 by 40 grid of
    the program. *)
Theorem gen_size_and_bounds {rng : Type}
    (randrange : Z → Z → rng → option (Z * rng)) (num : Z) (s : rng) :
  randrange_contract randrange →
  0 ≤ num →
  ∃ L s',
    gen randrange GRID_WIDTH GRID_HEIGHT num s = Some (L, s')
    ∧ Z.of_nat (size L) ≤ num
    ∧ all_in_bounds GRID_WIDTH GRID_HEIGHT L.
Proof.
  intros Hrr Hnum.
  destruct (gen_draws_ok randrange Hrr GRID_WIDTH GRID_HEIGHT
              eq_refl eq_refl (Z.to_nat num) s)
    as (cells & s' & Eg & Hlen & Hall).
  exists (list_to_set cells), s'. unfold gen. rewrite Eg. simpl.
  split; [done|]. split.
  - pose proof (size_list_to_set_le cells). lia.
  - intros c Hc. apply elem_of_list_to_set in Hc.
    rewrite list.Forall_forall in Hall. specialize (Hall c Hc).
    unfold in_bounds, GRID_WIDTH, GRID_HEIGHT in *. lia.
Qed.

Lemma gen_size_and_bounds_witness :
  ∃ L s',
    gen lcg_randrange GRID_WIDTH GRID_HEIGHT 300 2024 = Some (L, s')
    ∧ Z.of_nat (size L) ≤ 300
    ∧ all_in_bounds GRID_WIDTH GRID_HEIGHT L.
Proof.
  apply (gen_size_and_bounds lcg_randrange 300 2024).
  - exact lcg_randrange_contract.
  - lia.
Defined.

(** C8. [toggle] is self-inverse: toggling an in-bounds coordinate twice
    gives back the live-set. *)
Theorem toggle_involutive width height c L :
  in_bounds width height c →
  toggle width height c (toggle width height c L) = L.
Proof.
  intros Hc. unfold toggle.
  destruct (decide (in_bounds width height c)) as [_|Hout]; [|done].
  destruct (decide (c ∈ L)) as [Hin|Hout].
  - rewrite decide_False
      by (rewrite elem_of_difference, elem_of_singleton; tauto).
    apply set_eq. intros x.
    rewrite elem_of_union, elem_of_difference, elem_of_singleton.
    destruct (decide (x = c)) as [-> |]; tauto.
  - rewrite decide_True
      by (rewrite elem_of_union, elem_of_singleton; tauto).
    apply set_eq. intros x.
    rewrite elem_of_difference, elem_of_union, elem_of_singleton.
    destruct (decide (x = c)) as [-> |]; tauto.
Qed.

Lemma toggle_involutive_witness :
  toggle 40 40 (1, 2) (toggle 40 40 (1, 2) blinker_v) = blinker_v.
Proof.
  apply (toggle_involutive 40 40 (1, 2) blinker_v).
  unfold in_bounds; simpl; lia.
Defined.

(** C9. The Clear button always leaves the empty live-set and generation
    0, whatever the live-set and the generation were. *)
Theorem clear_button_resets s :
  positions (clear_button s) = ∅ ∧ generation (clear_button s) = 0.
Proof. split; reflexivity. Qed.

(** C10. The neighbour relation is symmetric: for in-bounds [a] and [b],
    [b] is a neighbour of [a] if and only if [a] is a neighbour of
    [b]. *)
Theorem get_neighbors_symmetric width height a b :
  in_bounds width height a →
  in_bounds width height b →
  b ∈ get_neighbors width height a ↔ a ∈ get_neighbors width height b.
Proof.
  intros Ha Hb. split; by apply get_neighbors_sym.
Qed.

Lemma get_neighbors_symmetric_witness :
  (1, 2) ∈ get_neighbors 40 40 (0, 1) ↔ (0, 1) ∈ get_neighbors 40 40 (1, 2).
Proof.
  apply (get_neighbors_symmetric 40 40 (0, 1) (1, 2));
    unfold in_bounds; simpl; lia.
Defined.

(** * Further properties of the code *)

(** ** The step: edge cases, locality, and what it never does *)

Section StepMore.
Variables width height : Z.
Variable iter : gset (Z * Z) → list (Z * Z).
Hypothesis iter_valid : valid_iter iter.

Local Abbreviation next_gen := (adjust_grid width height iter).
Local Abbreviation live := (live_neighbors width height).
Local Abbreviation nbrs := (get_neighbors width height).

Lemma live_neighbors_le_size L c : (live L c ≤ size L)%nat.
Proof.
  unfold live_neighbors. apply subseteq_size.
  intros n Hn. by apply elem_of_filter in Hn as [_ ?].
Qed.

(** Membership in the next generation, with the count taken on the
    set. *)
Lemma elem_of_next_gen L c :
  c ∈ next_gen L
  ↔ (c ∈ L ∧ (live L c = 2%nat ∨ live L c = 3%nat))
    ∨ ((∃ p, p ∈ L ∧ c ∈ nbrs p) ∧ live L c = 3%nat).
Proof.
  rewrite elem_of_adjust_grid by done.
  by rewrite elem_of_2_3, alive_count_live_neighbors.
Qed.

(** Two live-sets with the same members among the neighbours of [c] give
    [c] the same count. *)
Lemma live_neighbors_agree L1 L2 c :
  (∀ n, n ∈ nbrs c → n ∈ L1 ↔ n ∈ L2) → live L1 c = live L2 c.
Proof.
  intros Hag. unfold live_neighbors. f_equal. apply set_eq. intros n.
  rewrite !elem_of_filter. specialize (Hag n). tauto.
Qed.

(** A positive count names a live neighbour. *)
Lemma live_neighbor_exists L c :
  live L c ≠ 0%nat → ∃ n, n ∈ L ∧ n ∈ nbrs c.
Proof.
  intros Hpos. unfold live_neighbors in Hpos.
  apply size_non_empty_iff, set_choose in Hpos as [n Hn].
  apply elem_of_filter in Hn as [? ?]. by exists n.
Qed.

Lemma next_gen_empty : next_gen ∅ = ∅.
Proof.
  apply set_eq. intros c. rewrite elem_of_next_gen. split.
  - intros [[Hc _]|[(p & Hp & _) _]]; [done|].
    by apply elem_of_empty in Hp.
  - intros Hc. by apply elem_of_empty in Hc.
Qed.

(** X1. The empty live-set is a fixed point of the step. *)
Theorem adjust_grid_empty : adjust_grid width height iter ∅ = ∅.
Proof. exact next_gen_empty. Qed.

(** X2. A live-set of a single cell, wherever the cell is, dies out in
    one step. *)
Theorem adjust_grid_singleton c : adjust_grid width height iter {[ c ]} = ∅.
Proof.
  apply set_eq. intros c'. rewrite elem_of_next_gen.
  pose proof (live_neighbors_le_size {[ c ]} c') as Hle.
  rewrite size_singleton in Hle. split.
  - intros [[_ [Hn|Hn]]|[_ Hn]]; rewrite Hn in Hle; lia.
  - intros Hc. by apply elem_of_empty in Hc.
Qed.

(** X3. No cell appears out of nothing: a cell of the next generation
    was alive, or is an in-bounds cell adjacent to a live cell. *)
Theorem adjust_grid_support L c :
  c ∈ adjust_grid width height iter L →
  c ∈ L ∨ (in_bounds width height c ∧ ∃ p, p ∈ L ∧ adjacent p c).
Proof.
  rewrite elem_of_next_gen. intros [[Hc _]|[(p & Hp & Hn) _]]; [by left|].
  right. apply elem_of_get_neighbors in Hn as [Hb Hadj].
  split; [done|]. by exists p.
Qed.

(** X4. The fate of a cell depends only on the cell and its neighbours:
    two live-sets that agree there agree on the cell after the step. *)
Theorem adjust_grid_local L1 L2 c :
  (c ∈ L1 ↔ c ∈ L2) →
  (∀ n, n ∈ get_neighbors width height c → n ∈ L1 ↔ n ∈ L2) →
  c ∈ adjust_grid width height iter L1 ↔ c ∈ adjust_grid width height iter L2.
Proof.
  intros Hc Hag. rewrite !elem_of_next_gen.
  rewrite (live_neighbors_agree L1 L2 c Hag).
  assert (∀ La Lb : gset (Z * Z), (∀ n, n ∈ nbrs c → n ∈ La ↔ n ∈ Lb) →
            live Lb c = 3%nat → (∃ p, p ∈ La ∧ c ∈ nbrs p) →
            ∃ p, p ∈ Lb ∧ c ∈ nbrs p) as Hvisit.
  { intros La Lb Hab H3 (p & Hp & Hn).
    assert (in_bounds width height c) as Hb
      by (by apply get_neighbors_in_bounds in Hn).
    apply (live_neighbors_pos_visited width height Lb c Hb).
    rewrite H3. done. }
  split.
  - intros [[? ?]|[Hex H3]]; [left; tauto|right].
    split; [|done]. by apply (Hvisit L1 L2).
  - intros [[? ?]|[Hex H3]]; [left; tauto|right].
    split; [|done]. apply (Hvisit L2 L1); [| |done].
    + intros n Hn. symmetry. by apply Hag.
    + by rewrite (live_neighbors_agree L1 L2 c Hag).
Qed.

(** X5. Live cells outside the grid are ignored by every count: the
    in-bounds part of the next generation is the next generation of the
    in-bounds part. *)
Theorem adjust_grid_ignores_outside L :
  filter (in_bounds width height) (adjust_grid width height iter L)
  = adjust_grid width height iter (filter (in_bounds width height) L).
Proof.
  apply set_eq. intros c. rewrite elem_of_filter, !elem_of_next_gen.
  assert (live (filter (in_bounds width height) L) c = live L c) as ->.
  { apply live_neighbors_agree. intros n Hn. rewrite elem_of_filter.
    apply get_neighbors_in_bounds in Hn. tauto. }
  rewrite elem_of_filter. split.
  - intros [Hb [[? ?]|[_ H3]]]; [left; tauto|right].
    split; [|done].
    destruct (live_neighbor_exists L c) as (n & Hn & Hnc); [by rewrite H3|].
    exists n. rewrite elem_of_filter. split.
    + split; [|done]. by apply get_neighbors_in_bounds in Hnc.
    + by apply get_neighbors_sym in Hnc.
  - intros [[[Hb ?] ?]|[(p & Hp & Hn) H3]].
    + split; [done|]. left; tauto.
    + apply elem_of_filter in Hp as [_ Hp].
      split; [by apply get_neighbors_in_bounds in Hn|].
      right. split; [by exists p|done].
Qed.

End StepMore.

Lemma adjust_grid_empty_witness : adjust_grid 40 40 elements ∅ = ∅.
Proof. apply (adjust_grid_empty 40 40 elements valid_iter_elements). Defined.

Lemma adjust_grid_singleton_witness :
  adjust_grid 40 40 elements {[ (0, 39) ]} = ∅.
Proof.
  apply (adjust_grid_singleton 40 40 elements valid_iter_elements (0, 39)).
Defined.

Lemma adjust_grid_support_witness :
  (0, 2) ∈ blinker_v
  ∨ (in_bounds 40 40 (0, 2) ∧ ∃ p, p ∈ blinker_v ∧ adjacent p (0, 2)).
Proof.
  apply (adjust_grid_support 40 40 elements valid_iter_elements
           blinker_v (0, 2)).
  vm_compute. reflexivity.
Defined.

Lemma adjust_grid_local_witness :
  (0, 2) ∈ adjust_grid 40 40 elements blinker_v
  ↔ (0, 2) ∈ adjust_grid 40 40 elements (blinker_v ∪ {[ (30, 30) ]}).
Proof.
  apply (adjust_grid_local 40 40 elements valid_iter_elements
           blinker_v (blinker_v ∪ {[ (30, 30) ]}) (0, 2)).
  - split; intros H; vm_compute in H; discriminate H.
  - intros n Hn.
    change (get_neighbors 40 40 (0, 2))
      with [(0, 1); (0, 3); (1, 1); (1, 2); (1, 3)] in Hn.
    rewrite !elem_of_cons, elem_of_nil in Hn.
    repeat destruct Hn as [Hn|Hn]; try done; subst n;
      split; intros H; first [ compute_done
                             | vm_compute in H; discriminate H ].
Defined.

Lemma adjust_grid_ignores_outside_witness :
  filter (in_bounds 40 40)
         (adjust_grid 40 40 elements (blinker_v ∪ {[ (-1, 2) ]}))
  = adjust_grid 40 40 elements
      (filter (in_bounds 40 40) (blinker_v ∪ {[ (-1, 2) ]})).
Proof.
  apply (adjust_grid_ignores_outside 40 40 elements valid_iter_elements).
Defined.

(** ** The step under maps of the plane *)

Section Image.
Variable f : Z * Z → Z * Z.
Hypothesis f_inj : Inj (=) (=) f.

Lemma elem_of_image L c : f c ∈ image f L ↔ c ∈ L.
Proof.
  unfold image. rewrite elem_of_map. split.
  - intros (x & Hx & Hin). apply f_inj in Hx. by subst.
  - intros Hc. by exists c.
Qed.

Lemma size_image L : size (image f L) = size L.
Proof.
  unfold image, set_map. rewrite size_list_to_set.
  - by rewrite length_fmap.
  - apply NoDup_fmap_2; [done|apply NoDup_elements].
Qed.

(** A count taken after the map is the count taken before it, when the
    counted property is carried along. *)
Lemma size_filter_image (P Q : Z * Z → Prop)
    `{!∀ x, Decision (P x)} `{!∀ x, Decision (Q x)} L :
  (∀ x, x ∈ L → Q (f x) ↔ P x) →
  size (filter Q (image f L)) = size (filter P L).
Proof.
  intros HPQ. rewrite <- (size_image (filter P L)). f_equal.
  apply set_eq. intros y. unfold image.
  rewrite elem_of_filter, !elem_of_map. split.
  - intros (HQ & x & -> & Hx). exists x. split; [done|].
    apply elem_of_filter. split; [by apply HPQ|done].
  - intros (x & -> & [HP Hx]%elem_of_filter).
    split; [by apply HPQ|by exists x].
Qed.

(** The step commutes with [f] at a cell [c] as soon as [f] carries the
    neighbour relation between [c] and the live cells from one grid to
    the other. *)
Lemma adjust_grid_conjugate w h w2 h2 iter iter2 L c :
  valid_iter iter → valid_iter iter2 →
  (∀ p, p ∈ L →
     (f p ∈ get_neighbors w2 h2 (f c) ↔ p ∈ get_neighbors w h c)
     ∧ (f c ∈ get_neighbors w2 h2 (f p) ↔ c ∈ get_neighbors w h p)) →
  f c ∈ adjust_grid w2 h2 iter2 (image f L) ↔ c ∈ adjust_grid w h iter L.
Proof.
  intros Hv Hv2 Hn. rewrite !elem_of_next_gen by done.
  rewrite elem_of_image.
  assert (live_neighbors w2 h2 (image f L) (f c) = live_neighbors w h L c)
    as ->.
  { unfold live_neighbors. apply size_filter_image.
    intros x Hx. by apply Hn. }
  assert ((∃ q, q ∈ image f L ∧ f c ∈ get_neighbors w2 h2 q)
          ↔ ∃ p, p ∈ L ∧ c ∈ get_neighbors w h p) as ->; [|done].
  split.
  - intros (q & Hq & Hc). unfold image in Hq.
    apply elem_of_map in Hq as (p & -> & Hp).
    exists p. split; [done|]. by apply Hn.
  - intros (p & Hp & Hc). exists (f p).
    split; [by apply elem_of_image|]. by apply Hn.
Qed.

End Image.

#[global] Instance shift_inj d : Inj (=) (=) (shift d).
Proof.
  intros [a b] [a' b']. unfold shift; cbn [fst snd].
  intros Heq. injection Heq as ? ?. f_equal; lia.
Qed.

#[global] Instance transpose_inj : Inj (=) (=) transpose.
Proof.
  intros [a b] [a' b']. unfold transpose; cbn [fst snd].
  intros Heq. by injection Heq as -> ->.
Qed.

#[global] Instance mirror_inj width : Inj (=) (=) (mirror width).
Proof.
  intros [a b] [a' b']. unfold mirror; cbn [fst snd].
  intros Heq. injection Heq as ? ?. f_equal; lia.
Qed.

Lemma adjacent_shift d a b : adjacent (shift d a) (shift d b) ↔ adjacent a b.
Proof.
  destruct a as [a1 a2], b as [b1 b2], d as [d1 d2].
  unfold adjacent, shift; cbn [fst snd]. split.
  - intros (Hne & ? & ?). repeat split; try lia.
    intros Heq. apply Hne. injection Heq as -> ->. done.
  - intros (Hne & ? & ?). repeat split; try lia.
    intros Heq. apply Hne. injection Heq as ? ?. f_equal; lia.
Qed.

Lemma adjacent_transpose a b :
  adjacent (transpose a) (transpose b) ↔ adjacent a b.
Proof.
  destruct a as [a1 a2], b as [b1 b2].
  unfold adjacent, transpose; cbn [fst snd]. split.
  - intros (Hne & ? & ?). repeat split; try lia.
    intros Heq. apply Hne. injection Heq as -> ->. done.
  - intros (Hne & ? & ?). repeat split; try lia.
    intros Heq. apply Hne. injection Heq as -> ->. done.
Qed.

Lemma adjacent_mirror width a b :
  adjacent (mirror width a) (mirror width b) ↔ adjacent a b.
Proof.
  destruct a as [a1 a2], b as [b1 b2].
  unfold adjacent, mirror; cbn [fst snd]. split.
  - intros (Hne & ? & ?). repeat split; try lia.
    intros Heq. apply Hne. injection Heq as -> ->. done.
  - intros (Hne & ? & ?). repeat split; try lia.
    intros Heq. apply Hne. injection Heq as ? ?. f_equal; lia.
Qed.

(** X6. The step is invariant under translation away from the edges: when
    a live-set and its translate both lie in the grid, a cell of the grid
    whose translate is in the grid has the same fate as its translate. *)
Theorem adjust_grid_shift width height iter iter2 d L c :
  valid_iter iter → valid_iter iter2 →
  all_in_bounds width height L →
  all_in_bounds width height (image (shift d) L) →
  in_bounds width height c →
  in_bounds width height (shift d c) →
  shift d c ∈ adjust_grid width height iter2 (image (shift d) L)
  ↔ c ∈ adjust_grid width height iter L.
Proof.
  intros Hv Hv2 HL HdL Hc Hdc.
  apply (adjust_grid_conjugate (shift d) _ width height width height);
    [done|done|].
  intros p Hp. rewrite !elem_of_get_neighbors, !adjacent_shift.
  assert (in_bounds width height (shift d p))
    by (by apply HdL, elem_of_image; [apply _|]).
  specialize (HL p Hp). tauto.
Qed.

Lemma adjust_grid_shift_witness :
  shift (20, 7) (0, 2)
    ∈ adjust_grid 40 40 elements (image (shift (20, 7)) blinker_v)
  ↔ (0, 2) ∈ adjust_grid 40 40 elements blinker_v.
Proof.
  apply (adjust_grid_shift 40 40 elements elements (20, 7) blinker_v (0, 2)).
  - exact valid_iter_elements.
  - exact valid_iter_elements.
  - apply blinker_v_in_bounds; lia.
  - intros c Hc. unfold image in Hc. apply elem_of_map in Hc as (p & -> & Hp).
    apply elem_of_blinker_v in Hp as [-> |[-> | ->]];
      unfold in_bounds, shift; simpl; lia.
  - unfold in_bounds; simpl; lia.
  - unfold in_bounds, shift; simpl; lia.
Defined.

(** X7. The step treats the two axes alike: stepping the transposed
    live-set on the transposed grid gives the transposed result. *)
Theorem adjust_grid_transpose width height iter iter2 L :
  valid_iter iter → valid_iter iter2 →
  adjust_grid height width iter2 (image transpose L)
  = image transpose (adjust_grid width height iter L).
Proof.
  intros Hv Hv2. apply set_eq. intros y.
  replace y with (transpose (transpose y)) by (by destruct y).
  rewrite elem_of_image by apply _.
  apply (adjust_grid_conjugate transpose _ width height height width);
    [done|done|].
  intros p Hp. rewrite !elem_of_get_neighbors, !adjacent_transpose.
  unfold in_bounds, transpose; cbn [fst snd]. tauto.
Qed.

Lemma adjust_grid_transpose_witness :
  adjust_grid 30 40 elements (image transpose blinker_v)
  = image transpose (adjust_grid 40 30 elements blinker_v).
Proof.
  apply (adjust_grid_transpose 40 30 elements elements blinker_v).
  - exact valid_iter_elements.
  - exact valid_iter_elements.
Defined.

(** X8. The step commutes with the left-right mirror image of the
    grid. *)
Theorem adjust_grid_mirror width height iter iter2 L :
  valid_iter iter → valid_iter iter2 →
  adjust_grid width height iter2 (image (mirror width) L)
  = image (mirror width) (adjust_grid width height iter L).
Proof.
  intros Hv Hv2. apply set_eq. intros y.
  replace y with (mirror width (mirror width y))
    by (destruct y; unfold mirror; cbn [fst snd]; f_equal; lia).
  rewrite elem_of_image by apply _.
  apply (adjust_grid_conjugate (mirror width) _ width height width height);
    [done|done|].
  intros p Hp. rewrite !elem_of_get_neighbors, !adjacent_mirror.
  unfold in_bounds, mirror; cbn [fst snd]. split; split; intros [[? ?] ?];
    (split; [split; [lia|done]|done]).
Qed.

Lemma adjust_grid_mirror_witness :
  adjust_grid 40 40 elements (image (mirror 40) blinker_v)
  = image (mirror 40) (adjust_grid 40 40 elements blinker_v).
Proof.
  apply (adjust_grid_mirror 40 40 elements elements blinker_v).
  - exact valid_iter_elements.
  - exact valid_iter_elements.
Defined.

(** X9. The edge of the grid acts as a wall of dead cells: for a live-set
    within the grid, stepping on a larger grid and keeping what falls in
    the smaller one is the step on the smaller grid. *)
Theorem adjust_grid_enlarge width height width' height' iter iter' L :
  valid_iter iter → valid_iter iter' →
  width ≤ width' → height ≤ height' →
  all_in_bounds width height L →
  adjust_grid width height iter L
  = filter (in_bounds width height) (adjust_grid width' height' iter' L).
Proof.
  intros Hv Hv' Hw Hh HL.
  assert (all_in_bounds width' height' L) as HL'.
  { intros c Hc. specialize (HL c Hc). unfold in_bounds in *. lia. }
  apply set_eq. intros c. rewrite elem_of_filter.
  rewrite !elem_of_adjust_grid_moore by done. split.
  - intros [[Hc Hn]|[(p & Hp & Hb & Hm) Hn]].
    + split; [by apply HL|by left].
    + split; [done|]. right. split; [|done]. exists p.
      split; [done|]. split; [|done]. unfold in_bounds in *. lia.
  - intros [Hb [[Hc Hn]|[(p & Hp & _ & Hm) Hn]]]; [by left|].
    right. split; [|done]. by exists p.
Qed.

Lemma adjust_grid_enlarge_witness :
  adjust_grid 5 5 elements blinker_v
  = filter (in_bounds 5 5) (adjust_grid 40 40 elements blinker_v).
Proof.
  apply (adjust_grid_enlarge 5 5 40 40 elements elements blinker_v).
  - exact valid_iter_elements.
  - exact valid_iter_elements.
  - lia.
  - lia.
  - apply blinker_v_in_bounds; lia.
Defined.

(** ** The block *)

Lemma elem_of_block x y c :
  c ∈ block x y
  ↔ c = (x, y) ∨ c = (x + 1, y) ∨ c = (x, y + 1) ∨ c = (x + 1, y + 1).
Proof.
  unfold block. rewrite !elem_of_union, !elem_of_singleton. tauto.
Qed.

Lemma block_shift x y : block x y = image (shift (x, y)) (block 0 0).
Proof.
  apply set_eq. intros c. unfold image.
  rewrite elem_of_map, elem_of_block. split.
  - intros [-> |[-> |[-> | ->]]];
      [exists (0, 0)|exists (1, 0)|exists (0, 1)|exists (1, 1)];
      (split; [unfold shift; cbn [fst snd]; f_equal; lia|compute_done]).
  - intros (p & -> & Hp). apply elem_of_block in Hp.
    destruct Hp as [-> |[-> |[-> | ->]]]; unfold shift; cbn [fst snd];
      [left|right; left|right; right; left|right; right; right];
      f_equal; lia.
Qed.

Lemma moore_count_shift d L c :
  moore_count (image (shift d) L) (shift d c) = moore_count L c.
Proof.
  unfold moore_count. apply size_filter_image; [apply _|].
  intros p _. apply adjacent_shift.
Qed.

Lemma unshift d c : c = shift d (c.1 - d.1, c.2 - d.2).
Proof. destruct c, d. unfold shift; cbn [fst snd]. f_equal; lia. Qed.

(** X10. A 2 by 2 block is a still life wherever it lies in the grid,
    the corners and the edges included. *)
Theorem block_still_life width height iter x y :
  valid_iter iter →
  all_in_bounds width height (block x y) →
  adjust_grid width height iter (block x y) = block x y.
Proof.
  intros Hv HL. apply set_eq. intros c.
  rewrite elem_of_adjust_grid_moore by done.
  rewrite block_shift. rewrite (unshift (x, y) c).
  set (c0 := (c.1 - (x, y).1, c.2 - (x, y).2)). clearbody c0.
  rewrite moore_count_shift, elem_of_image by apply _. split.
  - intros [[Hc _]|[(p & Hp & _ & Hm) Hn]]; [done|].
    unfold image in Hp. apply elem_of_map in Hp as (p0 & -> & Hp0).
    apply elem_of_moore, adjacent_shift, elem_of_moore in Hm.
    apply elem_of_block in Hp0 as [-> |[-> |[-> | ->]]];
      unfold moore in Hm; rewrite !elem_of_cons, elem_of_nil in Hm;
      repeat destruct Hm as [Hm|Hm]; try done; subst c0;
      first [ by (vm_compute in Hn; discriminate Hn) | compute_done ].
  - intros Hc. left. split; [done|].
    apply elem_of_block in Hc as [-> |[-> |[-> | ->]]]; compute_done.
Qed.

Lemma block_still_life_witness :
  adjust_grid 40 40 elements (block 38 0) = block 38 0.
Proof.
  apply (block_still_life 40 40 elements 38 0).
  - exact valid_iter_elements.
  - intros c [-> |[-> |[-> | ->]]]%elem_of_block;
      unfold in_bounds; simpl; lia.
Defined.

(** ** The neighbour list *)

(** X11. [get_neighbors] returns the in-bounds cells among the eight
    around the cell, in the order of its two loops: column by column
    from the left, and from the top within a column.  The cell itself
    need not be in bounds. *)
Theorem get_neighbors_order width height c :
  get_neighbors width height c = filter (in_bounds width height) (moore c).
Proof. apply get_neighbors_filter_moore. Qed.

(** X12. On a grid of any shape, an in-bounds cell has one neighbour
    less than the cells of the rectangle of columns and rows around it
    that exist: 8, 5 or 3 on a grid at least 2 wide and high, and 2, 1 or
    0 on a grid a single cell wide or high. *)
Theorem length_get_neighbors width height c :
  in_bounds width height c →
  Z.of_nat (length (get_neighbors width height c))
  = span width c.1 * span height c.2 - 1.
Proof.
  destruct c as [x y]. unfold in_bounds, span; cbn [fst snd].
  intros [Hx Hy]. rewrite get_neighbors_filter_moore. unfold moore.
  remember (Z.min (width - 1) (x + 1) - Z.max 0 (x - 1) + 1) as cols
    eqn:Ecols.
  remember (Z.min (height - 1) (y + 1) - Z.max 0 (y - 1) + 1) as rows
    eqn:Erows.
  assert (cols = 1 ∨ cols = 2 ∨ cols = 3) as Hcols by lia.
  assert (rows = 1 ∨ rows = 2 ∨ rows = 3) as Hrows by lia.
  destruct Hcols as [Hc|[Hc|Hc]], Hrows as [Hr|[Hr|Hr]];
    rewrite Hc, Hr;
    destruct (decide (x = 0)), (decide (y = 0));
    settle_bounds; cbn [length]; lia.
Qed.

Lemma length_get_neighbors_witness :
  Z.of_nat (length (get_neighbors 40 1 (7, 0)))
  = span 40 (7, 0).1 * span 1 (7, 0).2 - 1.
Proof.
  apply (length_get_neighbors 40 1 (7, 0)).
  unfold in_bounds; simpl; lia.
Defined.

(** ** The size of a generation *)

Lemma length_bind_const {A B : Type} (g : A → list B) (l : list A) (k : nat) :
  (∀ x, length (g x) = k) → length (l ≫= g) = (length l * k)%nat.
Proof.
  intros Hg. induction l as [|x l IH]; [done|].
  rewrite bind_cons, length_app, Hg, IH. simpl. lia.
Qed.

Lemma length_full_grid width height :
  length (full_grid width height) = (Z.to_nat width * Z.to_nat height)%nat.
Proof.
  unfold full_grid.
  rewrite (length_bind_const _ _ (Z.to_nat height)), length_seqZ; [done|].
  intros x. rewrite (length_bind_const _ _ 1%nat), length_seqZ by done. lia.
Qed.

Lemma size_in_bounds width height L :
  all_in_bounds width height L →
  (size L ≤ Z.to_nat width * Z.to_nat height)%nat.
Proof.
  intros HL. rewrite <- length_full_grid.
  etrans; [|apply size_list_to_set_le].
  apply subseteq_size. intros c Hc.
  apply elem_of_list_to_set, elem_of_full_grid. by apply HL.
Qed.

(** X13. A generation that starts within the grid never holds more live
    cells than the grid has cells, whatever the step does. *)
Theorem adjust_grid_population width height iter L :
  valid_iter iter →
  all_in_bounds width height L →
  (size (adjust_grid width height iter L)
   ≤ Z.to_nat width * Z.to_nat height)%nat.
Proof.
  intros Hv HL. apply size_in_bounds. intros c Hc.
  by apply (adjust_grid_in_bounds width height iter Hv L).
Qed.

Lemma adjust_grid_population_witness :
  (size (adjust_grid 40 40 elements blinker_v)
   ≤ Z.to_nat 40 * Z.to_nat 40)%nat.
Proof.
  apply (adjust_grid_population 40 40 elements blinker_v).
  - exact valid_iter_elements.
  - apply blinker_v_in_bounds; lia.
Defined.

(** ** More on [gen] *)

Section GenMore.
Context {rng : Type}.
Variable randrange : Z → Z → rng → option (Z * rng).
Variables width height : Z.

(** What [gen] returns on a grid with cells, for a generator that meets
    its contract. *)
Lemma gen_ok num s :
  randrange_contract randrange → 0 < width → 0 < height →
  ∃ L s',
    gen randrange width height num s = Some (L, s')
    ∧ (size L ≤ Z.to_nat num)%nat
    ∧ ∀ c, c ∈ L → (0 ≤ c.1 < height) ∧ (0 ≤ c.2 < width).
Proof.
  intros Hrr Hw Hh.
  destruct (gen_draws_ok randrange Hrr width height Hw Hh (Z.to_nat num) s)
    as (cells & s' & Eg & Hlen & Hall).
  exists (list_to_set cells), s'. unfold gen. rewrite Eg. simpl.
  split; [done|]. split.
  - rewrite <- Hlen. apply size_list_to_set_le.
  - intros c Hc. apply elem_of_list_to_set in Hc.
    rewrite list.Forall_forall in Hall. by apply Hall.
Qed.

(** X14. [gen] of a count that is zero or negative returns the empty
    live-set and draws nothing from the generator. *)
Theorem gen_nonpositive num s :
  num ≤ 0 → gen randrange width height num s = Some (∅, s).
Proof.
  intros Hnum. unfold gen.
  replace (Z.to_nat num) with 0%nat by lia. reflexivity.
Qed.

(** X15. On a grid of any shape [gen] bounds the first component of a
    cell by the height and the second by the width, the other way round
    from [get_neighbors]: its cells are in bounds of the transposed
    grid. *)
Theorem gen_transposed_bounds num s :
  randrange_contract randrange → 0 < width → 0 < height →
  ∃ L s',
    gen randrange width height num s = Some (L, s')
    ∧ all_in_bounds height width L.
Proof.
  intros Hrr Hw Hh.
  destruct (gen_ok num s Hrr Hw Hh) as (L & s' & Eg & _ & Hall).
  exists L, s'. split; [done|]. intros c Hc. by apply Hall.
Qed.

(** X16. [gen] raises as soon as it has a cell to draw on a grid without
    cells: the first draw from an empty range fails. *)
Theorem gen_empty_grid num s :
  randrange_contract randrange →
  (∀ a b s, b ≤ a → randrange a b s = None) →
  0 < num → width ≤ 0 ∨ height ≤ 0 →
  gen randrange width height num s = None.
Proof.
  intros Hrr Hfail Hnum Hempty. unfold gen.
  destruct (Z.to_nat num) as [|n] eqn:En; [lia|]. cbn [gen_draws].
  destruct (decide (height ≤ 0)) as [Hh|Hh].
  - by rewrite (Hfail 0 height s Hh).
  - destruct (Hrr 0 height s) as (a & s1 & -> & _); [lia|]. simpl.
    rewrite (Hfail 0 width s1) by lia. done.
Qed.

End GenMore.

Lemma lcg_randrange_fails a b s : b ≤ a → lcg_randrange a b s = None.
Proof. intros Hab. unfold lcg_randrange. by rewrite decide_False by lia. Qed.

Lemma gen_nonpositive_witness :
  gen lcg_randrange 40 40 (-3) 2024 = Some (∅, 2024).
Proof. apply (gen_nonpositive lcg_randrange 40 40 (-3) 2024). lia. Defined.

Lemma gen_transposed_bounds_witness :
  ∃ L s',
    gen lcg_randrange 30 40 5 2024 = Some (L, s')
    ∧ all_in_bounds 40 30 L.
Proof.
  apply (gen_transposed_bounds lcg_randrange 30 40 5 2024).
  - exact lcg_randrange_contract.
  - lia.
  - lia.
Defined.

Lemma gen_empty_grid_witness : gen lcg_randrange 0 40 5 2024 = None.
Proof.
  apply (gen_empty_grid lcg_randrange 0 40 5 2024).
  - exact lcg_randrange_contract.
  - exact lcg_randrange_fails.
  - lia.
  - left. lia.
Defined.

(** ** The runs of the script *)

Section MainFacts.
Context {rng : Type}.
Variable randrange : Z → Z → rng → option (Z * rng).
Hypothesis randrange_ok : randrange_contract randrange.
Variable iter : gset (Z * Z) → list (Z * Z).
Hypothesis iter_valid : valid_iter iter.

Lemma random_button_ok s r :
  ∃ s' r',
    random_button randrange s r = Some (s', r')
    ∧ (size (positions s') ≤ 399)%nat
    ∧ all_in_bounds GRID_WIDTH GRID_HEIGHT (positions s')
    ∧ generation s' = 0
    ∧ playing s' = playing s.
Proof.
  unfold random_button.
  destruct (randrange_ok 200 400 r) as (num & r1 & -> & Hnum); [lia|].
  destruct (gen_ok randrange GRID_WIDTH GRID_HEIGHT num r1 randrange_ok
              eq_refl eq_refl) as (L & r2 & Eg & Hsize & Hall).
  simpl. rewrite Eg. simpl. eexists _, _. split; [reflexivity|].
  cbn [positions generation playing]. repeat split; try lia.
  - apply Hall in H. unfold GRID_WIDTH. unfold GRID_HEIGHT in H. lia.
  - apply Hall in H. unfold GRID_WIDTH. unfold GRID_HEIGHT in H. lia.
  - apply Hall in H. unfold GRID_HEIGHT. unfold GRID_WIDTH in H. lia.
  - apply Hall in H. unfold GRID_HEIGHT. unfold GRID_WIDTH in H. lia.
Qed.

Lemma game_loop_ok s : state_ok s → state_ok (game_loop iter s).
Proof.
  intros [Hb Hg]. unfold game_loop. destruct (playing s); [|done].
  split; cbn [positions generation]; [|lia].
  intros c Hc.
  by apply (adjust_grid_in_bounds GRID_WIDTH GRID_HEIGHT iter iter_valid
              (positions s)).
Qed.

Lemma state_ok_empty p : state_ok {| positions := ∅; playing := p;
                                      generation := 0 |}.
Proof.
  split; cbn [positions generation]; [|lia].
  intros c Hc. by apply elem_of_empty in Hc.
Qed.

(** A run never fails and keeps the invariant. *)
Lemma main_ok ck s r :
  state_ok s →
  ∃ v s' r', main randrange iter ck s r = Some (v, s', r') ∧ state_ok s'.
Proof.
  intros Hs. unfold main.
  set (s1 := if start_pause_clicked ck then start_pause_button s else s).
  assert (state_ok s1) as Hs1 by (subst s1; by destruct ck as [[] ? ? ?]).
  set (s2 := if stop_clicked ck then stop_button s1 else s1).
  assert (state_ok s2) as Hs2.
  { subst s2. destruct (stop_clicked ck); [|done]. apply state_ok_empty. }
  clearbody s1 s2.
  assert (∃ s3 r3,
            (if random_clicked ck then random_button randrange s2 r
             else Some (s2, r)) = Some (s3, r3) ∧ state_ok s3)
    as (s3 & r3 & -> & Hs3).
  { destruct (random_clicked ck); [|by eexists _, _].
    destruct (random_button_ok s2 r) as (s3 & r3 & E & _ & Hb & Hg & _).
    exists s3, r3. split; [done|]. split; [done|]. lia. }
  simpl.
  set (s4 := if clear_clicked ck then clear_button s3 else s3).
  assert (state_ok s4) as Hs4.
  { subst s4. destruct (clear_clicked ck); [|done]. apply state_ok_empty. }
  eexists _, _, _. split; [reflexivity|]. by apply game_loop_ok.
Qed.

(** X17. The Random button, for any generator that meets the contract of
    [randrange]: it never fails, leaves at most 399 live cells, all
    within the grid, and generation 0, and does not touch the play
    flag. *)
Theorem random_button_result s r :
  ∃ s' r',
    random_button randrange s r = Some (s', r')
    ∧ (size (positions s') ≤ 399)%nat
    ∧ all_in_bounds GRID_WIDTH GRID_HEIGHT (positions s')
    ∧ generation s' = 0
    ∧ playing s' = playing s.
Proof. apply random_button_ok. Qed.

(** X18. One run of the script keeps the invariant of the session state,
    whatever buttons are clicked: it returns, and the live cells stay
    within the grid and the generation counter stays non-negative. *)
Theorem main_preserves_state_ok ck s r :
  state_ok s →
  ∃ v s' r', main randrange iter ck s r = Some (v, s', r') ∧ state_ok s'.
Proof. apply main_ok. Qed.

(** X19. Every session that starts from the initial state runs to its
    end, and ends with the live cells within the grid, at most 1600 of
    them, and a non-negative generation counter. *)
Theorem session_state_ok cks r :
  ∃ s' r',
    session randrange iter cks initial_state r = Some (s', r')
    ∧ state_ok s'
    ∧ (size (positions s') ≤ 1600)%nat.
Proof.
  assert (∀ s r0, state_ok s →
            ∃ s' r', session randrange iter cks s r0 = Some (s', r')
                     ∧ state_ok s') as Hgen.
  { induction cks as [|ck cks' IH]; intros s r0 Hs.
    - by exists s, r0.
    - destruct (main_ok ck s r0 Hs) as (v & s1 & r1 & E & Hs1).
      destruct (IH s1 r1 Hs1) as (s' & r' & E' & Hs').
      exists s', r'. split; [|done]. cbn [session]. rewrite E. simpl. done. }
  destruct (Hgen initial_state r) as (s' & r' & E & Hs').
  { apply state_ok_empty. }
  exists s', r'. split; [done|]. split; [done|].
  destruct Hs' as [Hb _].
  apply (size_in_bounds GRID_WIDTH GRID_HEIGHT) in Hb. exact Hb.
Qed.

(** X20. Clear pressed while the simulation is playing: the status line
    of the run shows generation 0 and no live cell, but the game loop of
    the same run steps the cleared grid, so the run ends with the empty
    live-set, still playing, at generation 1. *)
Theorem main_clear_while_playing s r :
  playing s = true →
  ∃ v,
    main randrange iter
      {| start_pause_clicked := false; stop_clicked := false;
         random_clicked := false; clear_clicked := true |} s r
    = Some (v, {| positions := ∅; playing := true; generation := 1 |}, r)
    ∧ shown_generation (status v) = 0
    ∧ shown_alive (status v) = 0%nat.
Proof.
  intros Hp. unfold main. simpl. unfold game_loop, clear_button.
  cbn [positions playing generation]. rewrite Hp.
  rewrite (next_gen_empty GRID_WIDTH GRID_HEIGHT iter iter_valid).
  eexists. split; [reflexivity|].
  cbn [status shown_generation shown_alive]. split; [done|].
  vm_compute. reflexivity.
Qed.

End MainFacts.

(** X21. While the simulation plays and no button is clicked, [n] runs of
    the script apply the step [n] times and add [n] to the generation
    counter, without drawing from the generator. *)
Theorem session_idle_playing {rng : Type}
    (randrange : Z → Z → rng → option (Z * rng)) iter (n : nat) s r :
  playing s = true →
  session randrange iter (replicate n no_click) s r
  = Some ({| positions :=
               Nat.iter n (adjust_grid GRID_WIDTH GRID_HEIGHT iter)
                        (positions s);
             playing := true;
             generation := generation s + Z.of_nat n |}, r).
Proof.
  revert s. induction n as [|n IH]; intros s Hp.
  - simpl. destruct s as [P p g]. simpl in *. subst p.
    do 3 f_equal. lia.
  - cbn [replicate session]. unfold main. simpl.
    unfold game_loop at 1. rewrite Hp. simpl.
    rewrite IH by done. cbn [positions generation playing].
    do 3 f_equal; [|lia].
    rewrite <- Nat.iter_succ_r. done.
Qed.

Lemma random_button_result_witness :
  ∃ s' r',
    random_button lcg_randrange initial_state 2024 = Some (s', r')
    ∧ (size (positions s') ≤ 399)%nat
    ∧ all_in_bounds GRID_WIDTH GRID_HEIGHT (positions s')
    ∧ generation s' = 0
    ∧ playing s' = playing initial_state.
Proof.
  apply (random_button_result lcg_randrange lcg_randrange_contract
           initial_state 2024).
Defined.

Lemma main_preserves_state_ok_witness :
  ∃ v s' r',
    main lcg_randrange elements
      {| start_pause_clicked := true; stop_clicked := false;
         random_clicked := true; clear_clicked := false |}
      initial_state 2024
    = Some (v, s', r')
    ∧ state_ok s'.
Proof.
  apply (main_preserves_state_ok lcg_randrange lcg_randrange_contract
           elements valid_iter_elements).
  split; [|simpl; lia]. intros c Hc. by apply elem_of_empty in Hc.
Defined.

Lemma session_state_ok_witness :
  ∃ s' r',
    session lcg_randrange elements
      [ {| start_pause_clicked := false; stop_clicked := false;
           random_clicked := true; clear_clicked := false |};
        {| start_pause_clicked := true; stop_clicked := false;
           random_clicked := false; clear_clicked := false |};
        no_click; no_click ]
      initial_state 2024
    = Some (s', r')
    ∧ state_ok s'
    ∧ (size (positions s') ≤ 1600)%nat.
Proof.
  apply (session_state_ok lcg_randrange lcg_randrange_contract
           elements valid_iter_elements).
Defined.

Lemma main_clear_while_playing_witness :
  ∃ v,
    main lcg_randrange elements
      {| start_pause_clicked := false; stop_clicked := false;
         random_clicked := false; clear_clicked := true |}
      {| positions := blinker_v; playing := true; generation := 12 |} 2024
    = Some (v, {| positions := ∅; playing := true; generation := 1 |}, 2024)
    ∧ shown_generation (status v) = 0
    ∧ shown_alive (status v) = 0%nat.
Proof.
  apply (main_clear_while_playing lcg_randrange elements valid_iter_elements).
  reflexivity.
Defined.

Lemma session_idle_playing_witness :
  session lcg_randrange elements (replicate 2 no_click)
    {| positions := blinker_v; playing := true; generation := 0 |} 2024
  = Some ({| positions :=
               Nat.iter 2 (adjust_grid GRID_WIDTH GRID_HEIGHT elements)
                 (positions {| positions := blinker_v; playing := true;
                               generation := 0 |});
             playing := true;
             generation :=
               generation {| positions := blinker_v; playing := true;
                             generation := 0 |} + Z.of_nat 2 |}, 2024).
Proof.
  apply (session_idle_playing lcg_randrange elements 2
           {| positions := blinker_v; playing := true; generation := 0 |}
           2024).
  reflexivity.
Defined.

(** ** The drawing *)

Lemma foldl_snoc {A B : Type} (g : B → A) (l : list B) (init : list A) :
  foldl (λ acc x, acc ++ [g x]) init l = init ++ (g <$> l).
Proof.
  revert init. induction l as [|x l IH]; intros init; simpl.
  - by rewrite app_nil_r.
  - rewrite IH, <- app_assoc. done.
Qed.

(** The three loops of [create_grid_svg], read as three maps. *)
Lemma svg_body_parts gw gh cs iter P :
  svg_body (create_grid_svg gw gh cs iter P)
  = Background (gw * cs) (gh * cs) "#808080"
    :: (cell_rect cs <$> iter P)
    ++ (h_line cs (gw * cs) <$> seqZ 0 (gh + 1))
    ++ (v_line cs (gh * cs) <$> seqZ 0 (gw + 1)).
Proof.
  unfold create_grid_svg. cbn [svg_body].
  rewrite !foldl_snoc, <- !app_assoc. done.
Qed.

(** X22. The drawing holds the background, one square per live cell, and
    [GRID_HEIGHT + 1] horizontal and [GRID_WIDTH + 1] vertical lines:
    83 shapes and the live cells, on the grid of the program. *)
Theorem create_grid_svg_count gw gh cs iter P :
  valid_iter iter →
  length (svg_body (create_grid_svg gw gh cs iter P))
  = (1 + size P + Z.to_nat (gh + 1) + Z.to_nat (gw + 1))%nat.
Proof.
  intros Hv. rewrite svg_body_parts. cbn [length].
  rewrite !length_app, !length_fmap, !length_seqZ.
  rewrite (Hv P). unfold size, set_size. simpl. lia.
Qed.

Lemma create_grid_svg_count_witness :
  length (svg_body (create_grid_svg 40 40 15 elements blinker_v))
  = (1 + size blinker_v + Z.to_nat (40 + 1) + Z.to_nat (40 + 1))%nat.
Proof.
  apply (create_grid_svg_count 40 40 15 elements blinker_v).
  exact valid_iter_elements.
Defined.

(** X23. When the live cells are within the grid, every shape of the
    drawing lies within the canvas of [GRID_WIDTH * CELL_SIZE] by
    [GRID_HEIGHT * CELL_SIZE] pixels. *)
Theorem create_grid_svg_inside gw gh cs iter P :
  valid_iter iter →
  0 ≤ cs → 0 ≤ gw → 0 ≤ gh →
  all_in_bounds gw gh P →
  Forall (inside_canvas (svg_width (create_grid_svg gw gh cs iter P))
                        (svg_height (create_grid_svg gw gh cs iter P)))
         (svg_body (create_grid_svg gw gh cs iter P)).
Proof.
  intros Hv Hcs Hgw Hgh HP. rewrite svg_body_parts.
  cbn [create_grid_svg svg_width svg_height].
  apply Forall_cons. split; [done|].
  rewrite !Forall_app, !Forall_fmap. repeat split.
  - apply list.Forall_forall. intros [col row] Hc.
    apply (elem_of_valid_iter iter P _ Hv), HP in Hc.
    destruct Hc as [Hx Hy]. cbn [fst snd] in Hx, Hy.
    simpl. repeat split; nia.
  - apply list.Forall_forall. intros i Hi. apply elem_of_seqZ in Hi.
    simpl. repeat split; nia.
  - apply list.Forall_forall. intros i Hi. apply elem_of_seqZ in Hi.
    simpl. repeat split; nia.
Qed.

Lemma create_grid_svg_inside_witness :
  Forall (inside_canvas
            (svg_width (create_grid_svg 40 40 15 elements blinker_v))
            (svg_height (create_grid_svg 40 40 15 elements blinker_v)))
         (svg_body (create_grid_svg 40 40 15 elements blinker_v)).
Proof.
  apply (create_grid_svg_inside 40 40 15 elements blinker_v).
  - exact valid_iter_elements.
  - lia.
  - lia.
  - lia.
  - apply blinker_v_in_bounds; lia.
Defined.


